(** * AsyncServo: a shallow embedding of EEZYbotARM_MK2/AsyncServo.h

    The class is written for an 8-bit AVR Arduino (Uno/Nano), where [int]
    and [unsigned int] are 16 bits wide and [long] is 32 bits wide.  Every
    C integer is modelled as a [Z] together with the wrap-around of its C
    type, written out explicitly:
    - [uint8_t], [uint16_t], [uint32_t] fields reduce modulo 2^8, 2^16, 2^32;
    - a [uint16_t] operand is promoted to the 16-bit [unsigned int], so
      [a - b] of two [uint16_t] values is taken modulo 2^16;
    - a value converted to [int16_t] or to [long] is reinterpreted in two's
      complement, as avr-gcc does.
    The Arduino core helpers [constrain], [abs] (macros of Arduino.h) and
    [map] (WMath.cpp) are embedded as they are defined there.  Calls to the
    [Servo] base class are recorded: [attach] as the attached pin,
    [writeMicroseconds] as the list of pulse widths written. *)

From Stdlib Require Import ZArith List Lia.
Import ListNotations.
Local Open Scope Z_scope.

(** ** C integer types *)

Definition u8 (x : Z) : Z := x mod 2 ^ 8.
Definition u16 (x : Z) : Z := x mod 2 ^ 16.
Definition u32 (x : Z) : Z := x mod 2 ^ 32.

(** Conversion to [int16_t]. *)
Definition s16 (x : Z) : Z :=
  let y := x mod 2 ^ 16 in if 2 ^ 15 <=? y then y - 2 ^ 16 else y.

(** Arithmetic on [long] (32-bit, two's complement). *)
Definition s32 (x : Z) : Z :=
  let y := x mod 2 ^ 32 in if 2 ^ 31 <=? y then y - 2 ^ 32 else y.

(** ** Arduino core helpers *)

(** [#define constrain(amt,low,high) ((amt)<(low)?(low):((amt)>(high)?(high):(amt)))]
    The operands are given already converted to their common C type, so
    the comparisons are those of [Z]. *)
Definition constrain (amt low high : Z) : Z :=
  if amt <? low then low else if high <? amt then high else amt.

(** [#define abs(x) ((x)>0?(x):-(x))] applied to an [unsigned int]
    operand: the negation is taken modulo 2^16. *)
Definition abs_uint (x : Z) : Z := if 0 <? x then x else u16 (- x).

(** [long map(long x, long in_min, long in_max, long out_min, long out_max)
     { return (x - in_min) * (out_max - out_min) / (in_max - in_min) + out_min; }]
    C division truncates toward zero: [Z.quot]. *)
Definition map (x in_min in_max out_min out_max : Z) : Z :=
  s32 (Z.quot (s32 (s32 (x - in_min) * s32 (out_max - out_min)))
              (s32 (in_max - in_min)) + out_min).

(** ** The object *)

Record AsyncServo := mkServo {
  attached : option Z;        (* Servo::attach(pin) *)
  minBr : Z;                  (* uint16_t *)
  maxBr : Z;                  (* uint16_t *)
  minMS : Z;                  (* uint16_t *)
  maxMS : Z;                  (* uint16_t *)
  homeMS : Z;                 (* uint16_t *)
  target : Z;                 (* uint16_t, = 0 *)
  current : Z;                (* uint16_t, = 0 *)
  startAngle : Z;             (* uint16_t, = 0 *)
  minInterval : Z;            (* uint8_t, = 5 *)
  startInterval : Z;          (* uint8_t, never assigned *)
  interval : Z;               (* uint8_t *)
  previousMillis : Z;         (* uint32_t, = 0 *)
  rampUp : Z;                 (* uint8_t *)
  rampDown : Z                (* uint8_t *)
}.

(** A freshly constructed object: the default member initializers are
    applied; the fields without one hold whatever [junk] provides (zero for
    a global object, indeterminate for an automatic one). *)
Definition fresh (junk : AsyncServo) : AsyncServo :=
  {| attached := None;
     minBr := minBr junk; maxBr := maxBr junk;
     minMS := minMS junk; maxMS := maxMS junk; homeMS := homeMS junk;
     target := 0; current := 0; startAngle := 0;
     minInterval := 5;
     startInterval := startInterval junk; interval := interval junk;
     previousMillis := 0;
     rampUp := rampUp junk; rampDown := rampDown junk |}.

(** All-zero storage: the [junk] of a global object. *)
Definition zeros : AsyncServo :=
  {| attached := None; minBr := 0; maxBr := 0; minMS := 0; maxMS := 0;
     homeMS := 0; target := 0; current := 0; startAngle := 0;
     minInterval := 0; startInterval := 0; interval := 0;
     previousMillis := 0; rampUp := 0; rampDown := 0 |}.

(** [void init(uint8_t pin, uint16_t min, uint16_t max, uint16_t minB,
               uint16_t maxB, uint16_t home)] *)
Definition init (pin min max minB maxB home : Z) (s : AsyncServo) : AsyncServo :=
  (* this->attach(pin); minBr = minB; ... homeMS = home; *)
  let rampUp' := u8 (u16 (max - min) / 3) in
  let rampDown' := u8 (u16 (max - min) / 9) in
  let homeMS' := u16 (map (constrain home minB maxB) minB maxB min max) in
  {| attached := Some pin;
     minBr := minB; maxBr := maxB; minMS := min; maxMS := max;
     homeMS := homeMS';
     target := target s; current := current s; startAngle := startAngle s;
     minInterval := minInterval s; startInterval := startInterval s;
     interval := interval s; previousMillis := previousMillis s;
     rampUp := rampUp'; rampDown := rampDown' |}.

(** [void home()]: returns the new object and the pulse widths written. *)
Definition home (s : AsyncServo) : AsyncServo * list Z :=
  ({| attached := attached s;
      minBr := minBr s; maxBr := maxBr s; minMS := minMS s; maxMS := maxMS s;
      homeMS := homeMS s;
      target := homeMS s; current := homeMS s; startAngle := startAngle s;
      minInterval := minInterval s; startInterval := startInterval s;
      interval := interval s; previousMillis := previousMillis s;
      rampUp := rampUp s; rampDown := rampDown s |},
   [homeMS s]).

(** [uint16_t setTarget(uint16_t target, uint16_t duration)]: returns the
    new object and the returned value. *)
Definition setTarget (tgt duration : Z) (s : AsyncServo) : AsyncServo * Z :=
  (* int16_t value = constrain(target, minBr, maxBr); *)
  let value := s16 (constrain tgt (minBr s) (maxBr s)) in
  (* value = map(value, minBr, maxBr, minMS, maxMS); *)
  let value := s16 (map value (minBr s) (maxBr s) (minMS s) (maxMS s)) in
  (* this->target = constrain(value, minMS, maxMS);  the int16_t [value]
     meets the unsigned int [minMS]: the comparison is unsigned. *)
  let t := u16 (constrain (u16 value) (minMS s) (maxMS s)) in
  ({| attached := attached s;
      minBr := minBr s; maxBr := maxBr s; minMS := minMS s; maxMS := maxMS s;
      homeMS := homeMS s;
      target := t; current := current s;
      startAngle := current s;                     (* startAngle = current; *)
      minInterval := minInterval s; startInterval := startInterval s;
      interval := startInterval s;                 (* interval = startInterval; *)
      previousMillis := previousMillis s;
      rampUp := rampUp s; rampDown := rampDown s |},
   t).

(** The new [interval] chosen by [update] for a given [remaining]. *)
Definition ramp (remaining : Z) (s : AsyncServo) : Z :=
  if remaining <? rampDown s then
    (if interval s <? startInterval s then u8 (interval s + 1) else interval s)
  else if rampUp s <? remaining then
    (if minInterval s <? interval s then u8 (interval s - 1) else interval s)
  else interval s.

(** The position after one step toward [target]. *)
Definition advance (s : AsyncServo) : Z :=
  if target s <? current s then u16 (current s - 1)
  else if current s <? target s then u16 (current s + 1)
  else current s.

(** [void update()], with [millis()] passed as [now]: returns the new
    object and the pulse widths written. *)
Definition update (now : Z) (s : AsyncServo) : AsyncServo * list Z :=
  if current s =? target s then (s, [])
  else if interval s <? u32 (now - previousMillis s) then
    (* int16_t remaining = abs(current - target);  on unsigned int *)
    let remaining := s16 (abs_uint (u16 (current s - target s))) in
    let c := advance s in
    ({| attached := attached s;
        minBr := minBr s; maxBr := maxBr s; minMS := minMS s; maxMS := maxMS s;
        homeMS := homeMS s;
        target := target s; current := c; startAngle := startAngle s;
        minInterval := minInterval s; startInterval := startInterval s;
        interval := ramp remaining s;
        previousMillis := now;
        rampUp := rampUp s; rampDown := rampDown s |},
     [c])
  else (s, []).

(** Calls of [update] at the successive timestamps [ts]. *)
Fixpoint run (ts : list Z) (s : AsyncServo) : AsyncServo * list Z :=
  match ts with
  | [] => (s, [])
  | t :: ts' =>
      let '(s1, w1) := update t s in
      let '(s2, w2) := run ts' s1 in
      (s2, w1 ++ w2)
  end.

(** [uint16_t getTarget()]: the target converted back to brads,
    [map(target, minMS, maxMS, minBr, maxBr)] returned as [uint16_t]. *)
Definition getTarget (s : AsyncServo) : Z :=
  u16 (map (target s) (minMS s) (maxMS s) (minBr s) (maxBr s)).

(** The [millis()] values [start], [start + 1], ..., read [n] times at a
    1 ms cadence, as the 32-bit counter returns them. *)
Fixpoint ticks32 (start : Z) (n : nat) : list Z :=
  match n with
  | O => []
  | S n' => u32 start :: ticks32 (start + 1) n'
  end.

(** Well-formedness of the two [uint16_t] positions. *)
Definition wf (s : AsyncServo) : Prop :=
  0 <= current s < 2 ^ 16 /\ 0 <= target s < 2 ^ 16.

(** Distance still to travel, in pulse widths. *)
Definition dist (s : AsyncServo) : Z := Z.abs (current s - target s).

(** The public operations after [init], and their sequencing. *)
Inductive op := Home | SetTarget (tgt duration : Z) | Update (now : Z).

Definition exec_op (o : op) (s : AsyncServo) : AsyncServo :=
  match o with
  | Home => fst (home s)
  | SetTarget tgt duration => fst (setTarget tgt duration s)
  | Update now => fst (update now s)
  end.

Definition exec (os : list op) (s : AsyncServo) : AsyncServo :=
  fold_left (fun s o => exec_op o s) os s.

(** Timestamps [start], [start + 1], ..., [start + n - 1] (a 1 ms cadence). *)
Definition ticks (start : Z) (n : nat) : list Z :=
  List.map (fun k => start + Z.of_nat k) (seq 0 n).

(** The phase rule as the spec words it: [remaining = |current - target|]. *)
Definition spec_ramp (s : AsyncServo) : Z :=
  let remaining := Z.abs (current s - target s) in
  if remaining <? rampDown s then
    (if interval s <? startInterval s then interval s + 1 else interval s)
  else if rampUp s <? remaining then
    (if minInterval s <? interval s then interval s - 1 else interval s)
  else interval s.

(** The resolved target as the spec words it: clamp the angle, map it
    linearly onto the pulse range (in unbounded integers), clamp again. *)
Definition spec_resolve (tgt : Z) (s : AsyncServo) : Z :=
  let a := constrain tgt (minBr s) (maxBr s) in
  constrain (Z.quot ((a - minBr s) * (maxMS s - minMS s)) (maxBr s - minBr s)
             + minMS s) (minMS s) (maxMS s).

(** The range invariant of the positions. *)
Definition Inv (s : AsyncServo) : Prop :=
  0 <= minMS s <= maxMS s /\ maxMS s < 2 ^ 16 /\
  minMS s <= homeMS s <= maxMS s /\
  minMS s <= current s <= maxMS s /\ minMS s <= target s <= maxMS s.

Definition InvS (s : AsyncServo) : Prop :=
  Inv s /\ minMS s <= startAngle s <= maxMS s.

(** Once [setTarget] has run, [interval] never exceeds [startInterval]. *)
Definition interval_ok (s : AsyncServo) : Prop :=
  0 <= minInterval s /\ 0 <= interval s <= startInterval s /\ startInterval s < 2 ^ 8.

(** ** Concrete objects *)

(** A global object: zero storage, then the default member initializers. *)
Definition global_servo : AsyncServo := fresh zeros.

(** An object whose never-assigned [startInterval] byte holds [v] (an
    automatic object, or a subclass writing the protected field). *)
Definition servo_with_start_interval (v : Z) : AsyncServo :=
  fresh {| attached := None; minBr := 0; maxBr := 0; minMS := 0; maxMS := 0;
           homeMS := 0; target := 0; current := 0; startAngle := 0;
           minInterval := 0; startInterval := v; interval := 0;
           previousMillis := 0; rampUp := 0; rampDown := 0 |}.

(** init(pin 9, 1000..1600 us, 0..180, home 0), home(), setTarget(180, 0)
    with [startInterval] = 20: an upward move of 600 units. *)
Definition up_move : AsyncServo :=
  fst (setTarget 180 0
         (fst (home (init 9 1000 1600 0 180 0 (servo_with_start_interval 20))))).

(** init(pin 9, 1000..2000 us, 0..180, home 180), home(), setTarget(0, 0)
    with [startInterval] = 20: a downward move of 1000 units. *)
Definition down_move : AsyncServo :=
  fst (setTarget 0 0
         (fst (home (init 9 1000 2000 0 180 180 (servo_with_start_interval 20))))).

(** init(pin 9, 1000..2000 us, 0..180, home 90), home(), setTarget(180, 500)
    on a global object: 1500 -> 2000. *)
Definition scenario_90 : AsyncServo :=
  fst (setTarget 180 500 (fst (home (init 9 1000 2000 0 180 90 global_servo)))).

(** ** Lemmas about one call of [update] *)

Lemma u16_small x : 0 <= x < 2 ^ 16 -> u16 x = x.
Proof. intros; unfold u16; apply Z.mod_small; lia. Qed.

Lemma update_idle_eq now s : current s = target s -> update now s = (s, []).
Proof.
  intros H; unfold update; destruct (Z.eqb_spec (current s) (target s)); congruence.
Qed.

Lemma update_closed_eq now s :
  u32 (now - previousMillis s) <= interval s -> update now s = (s, []).
Proof.
  intros H; unfold update.
  destruct (Z.eqb_spec (current s) (target s)); [reflexivity|].
  destruct (Z.ltb_spec (interval s) (u32 (now - previousMillis s))); [lia|reflexivity].
Qed.

Lemma advance_up s : wf s -> current s < target s -> advance s = current s + 1.
Proof.
  intros [Hc Ht] H; unfold advance.
  destruct (Z.ltb_spec (target s) (current s)); [lia|].
  destruct (Z.ltb_spec (current s) (target s)); [|lia].
  apply u16_small; lia.
Qed.

Lemma advance_down s : wf s -> target s < current s -> advance s = current s - 1.
Proof.
  intros [Hc Ht] H; unfold advance.
  destruct (Z.ltb_spec (target s) (current s)); [|lia].
  apply u16_small; lia.
Qed.

(** The effective branch of [update], spelled out. *)
Lemma update_open_eq now s :
  current s <> target s -> interval s < u32 (now - previousMillis s) ->
  exists s', update now s = (s', [advance s]) /\
    current s' = advance s /\ target s' = target s /\ previousMillis s' = now /\
    startAngle s' = startAngle s /\ startInterval s' = startInterval s /\
    interval s' = ramp (s16 (abs_uint (u16 (current s - target s)))) s.
Proof.
  intros Hne Hgt; unfold update.
  destruct (Z.eqb_spec (current s) (target s)); [congruence|].
  destruct (Z.ltb_spec (interval s) (u32 (now - previousMillis s))); [|lia].
  eexists; split; [reflexivity|]; simpl; repeat split.
Qed.

Lemma update_wf now s : wf s -> wf (fst (update now s)).
Proof.
  intros Hwf; unfold update.
  destruct (Z.eqb_spec (current s) (target s)); [exact Hwf|].
  destruct (Z.ltb_spec (interval s) (u32 (now - previousMillis s))); [|exact Hwf].
  destruct Hwf as [Hc Ht]; split; simpl; [|lia].
  assert (Hl' : current s < target s \/ target s < current s) by lia.
  destruct Hl' as [Hl|Hl].
  - rewrite (advance_up s (conj Hc Ht) Hl); lia.
  - rewrite (advance_down s (conj Hc Ht) Hl); lia.
Qed.

(** One effective call moves [current] one unit toward [target]. *)
Lemma update_open_step now s :
  wf s -> current s <> target s -> interval s < u32 (now - previousMillis s) ->
  let '(s', w) := update now s in
  w = [current s'] /\ target s' = target s /\ previousMillis s' = now /\
  (current s < target s -> current s' = current s + 1) /\
  (target s < current s -> current s' = current s - 1) /\
  dist s' + 1 = dist s.
Proof.
  intros Hwf Hne Hgt.
  destruct (update_open_eq now s Hne Hgt)
    as (s' & -> & Hc & Ht & Hp & _).
  rewrite Hc, Ht, Hp; unfold dist; rewrite Hc, Ht.
  assert (Hl' : current s < target s \/ target s < current s) by lia.
  destruct Hl' as [Hl|Hl].
  - rewrite (advance_up s Hwf Hl); repeat split; intros; lia.
  - rewrite (advance_down s Hwf Hl); repeat split; intros; lia.
Qed.

(** Any call of [update]: at most one write, each write one unit closer. *)
Lemma update_any now s :
  wf s ->
  let '(s', w) := update now s in
  wf s' /\ target s' = target s /\
  dist s' + Z.of_nat (length w) = dist s /\
  (current s <= target s -> current s' <= target s) /\
  (target s <= current s -> target s <= current s').
Proof.
  intros Hwf.
  pose proof (update_wf now s Hwf) as Hwf'.
  destruct (Z.eq_dec (current s) (target s)) as [He|Hne].
  { rewrite (update_idle_eq now s He); simpl; split; [exact Hwf|]; repeat split; lia. }
  destruct (Z.le_gt_cases (u32 (now - previousMillis s)) (interval s)) as [Hle|Hgt].
  { rewrite (update_closed_eq now s Hle); simpl; split; [exact Hwf|]; repeat split; lia. }
  pose proof (update_open_step now s Hwf Hne Hgt) as Hstep.
  destruct (update now s) as [s' w] eqn:E; simpl in Hwf' |- *.
  destruct Hstep as (-> & Ht & _ & Hup & Hdown & Hd).
  simpl; rewrite Ht; split; [exact Hwf'|]; repeat split; lia.
Qed.

Lemma run_any ts s :
  wf s ->
  let '(s', w) := run ts s in
  wf s' /\ target s' = target s /\
  dist s' + Z.of_nat (length w) = dist s /\
  (current s <= target s -> current s' <= target s) /\
  (target s <= current s -> target s <= current s').
Proof.
  revert s; induction ts as [|t ts IH]; intros s Hwf; simpl.
  - split; [exact Hwf|]; repeat split; lia.
  - pose proof (update_any t s Hwf) as H1.
    destruct (update t s) as [s1 w1].
    destruct H1 as (Hwf1 & Ht1 & Hd1 & Hup1 & Hdn1).
    specialize (IH s1 Hwf1).
    destruct (run ts s1) as [s2 w2].
    destruct IH as (Hwf2 & Ht2 & Hd2 & Hup2 & Hdn2).
    rewrite length_app, Nat2Z.inj_add.
    split; [exact Hwf2|]; repeat split; lia.
Qed.

Lemma run_idle ts s : current s = target s -> run ts s = (s, []).
Proof.
  intros H; induction ts as [|t ts IH]; simpl; [reflexivity|].
  rewrite (update_idle_eq t s H), IH; reflexivity.
Qed.

(** ** Range lemmas for [init] and [setTarget] *)

Lemma s32_small x : 0 <= x < 2 ^ 31 -> s32 x = x.
Proof.
  intros H; unfold s32; rewrite Z.mod_small by lia.
  destruct (Z.leb_spec (2 ^ 31) x); lia.
Qed.

Lemma s16_small x : 0 <= x < 2 ^ 15 -> s16 x = x.
Proof.
  intros H; unfold s16; rewrite Z.mod_small by lia.
  destruct (Z.leb_spec (2 ^ 15) x); lia.
Qed.

Lemma constrain_range a low high :
  low <= high -> low <= constrain a low high <= high.
Proof.
  intros H; unfold constrain.
  destruct (Z.ltb_spec a low); [lia|].
  destruct (Z.ltb_spec high a); lia.
Qed.

Lemma constrain_in a low high : low <= a <= high -> constrain a low high = a.
Proof.
  intros H; unfold constrain.
  destruct (Z.ltb_spec a low); [lia|].
  destruct (Z.ltb_spec high a); lia.
Qed.

(** Without overflow of its [long] product, [map] is the integer linear map
    and stays in the output range. *)
Lemma map_exact x inl inh outl outh :
  0 <= inl < inh -> inh < 2 ^ 16 -> 0 <= outl <= outh -> outh < 2 ^ 16 ->
  (inh - inl) * (outh - outl) < 2 ^ 31 -> inl <= x <= inh ->
  map x inl inh outl outh = (x - inl) * (outh - outl) / (inh - inl) + outl /\
  outl <= map x inl inh outl outh <= outh.
Proof.
  intros Hi Hi2 Ho Ho2 Hp Hx; unfold map.
  assert (Hq : 0 <= (x - inl) * (outh - outl) <= (inh - inl) * (outh - outl)) by nia.
  rewrite (s32_small (x - inl)) by lia.
  rewrite (s32_small (outh - outl)) by lia.
  rewrite (s32_small ((x - inl) * (outh - outl))) by lia.
  rewrite (s32_small (inh - inl)) by lia.
  rewrite Z.quot_div_nonneg by lia.
  assert (Hd : 0 <= (x - inl) * (outh - outl) / (inh - inl) <= outh - outl).
  { split; [apply Z.div_pos; lia|].
    apply Z.div_le_upper_bound; lia. }
  rewrite s32_small by lia; lia.
Qed.

Lemma s32_id x : - 2 ^ 31 <= x < 2 ^ 31 -> s32 x = x.
Proof.
  intros H; unfold s32.
  destruct (Z.ltb_spec x 0) as [Hn|Hn].
  - assert (E : x mod 2 ^ 32 = x + 2 ^ 32)
      by (symmetry; apply Z.mod_unique with (q := -1); lia).
    rewrite E; destruct (Z.leb_spec (2 ^ 31) (x + 2 ^ 32)); lia.
  - rewrite Z.mod_small by lia; destruct (Z.leb_spec (2 ^ 31) x); lia.
Qed.

(** Stored in a [uint16_t], the result of [map] on an in-range input lies
    in the output range, also when the [long] product overflows: the
    wrapped quotient is then between [-2^16] and [out_max - out_min - 2^16]
    and the 16-bit store adds 2^16 back. *)
Lemma map_u16_range x inl inh outl outh :
  0 <= inl < inh -> inh < 2 ^ 16 -> 0 <= outl <= outh -> outh < 2 ^ 16 ->
  inl <= x <= inh ->
  outl <= u16 (map x inl inh outl outh) <= outh.
Proof.
  intros Hi Hi2 Ho Ho2 Hx; unfold map.
  rewrite (s32_small (x - inl)) by lia.
  rewrite (s32_small (outh - outl)) by lia.
  rewrite (s32_small (inh - inl)) by lia.
  set (X := x - inl) in *; set (D := outh - outl) in *; set (W := inh - inl) in *.
  assert (HX : 0 <= X <= W) by lia.
  assert (HD : 0 <= D < 2 ^ 16) by lia.
  assert (HW : 0 < W < 2 ^ 16) by lia.
  assert (HP : 0 <= X * D <= W * D) by (split; [apply Z.mul_nonneg_nonneg | apply Z.mul_le_mono_nonneg_r]; lia).
  assert (HP2 : W * D < 2 ^ 32) by nia.
  destruct (Z.ltb_spec (X * D) (2 ^ 31)) as [Hs|Hs].
  - rewrite (s32_small (X * D)) by lia.
    rewrite Z.quot_div_nonneg by lia.
    assert (Hq : 0 <= X * D / W <= D).
    { split; [apply Z.div_pos; lia|].
      apply Z.div_le_upper_bound; lia. }
    rewrite s32_small by lia; rewrite u16_small by lia; lia.
  - assert (E : s32 (X * D) = - (2 ^ 32 - X * D)).
    { unfold s32; rewrite Z.mod_small by lia.
      destruct (Z.leb_spec (2 ^ 31) (X * D)); lia. }
    rewrite E, Z.quot_opp_l by lia.
    rewrite Z.quot_div_nonneg by lia.
    assert (HX2 : 2 ^ 15 < X) by nia.
    assert (Hk : 2 ^ 16 - D <= (2 ^ 32 - X * D) / W <= 2 ^ 16).
    { split.
      - apply Z.div_le_lower_bound; [lia|].
        assert (0 <= D * (W - X)) by (apply Z.mul_nonneg_nonneg; lia).
        nia.
      - assert (Hlt : (2 ^ 32 - X * D) / W < 2 ^ 16 + 1)
          by (apply Z.div_lt_upper_bound; lia).
        lia. }
    rewrite s32_id by lia.
    assert (U : u16 (- ((2 ^ 32 - X * D) / W) + outl) =
                - ((2 ^ 32 - X * D) / W) + outl + 2 ^ 16)
      by (unfold u16; symmetry; apply Z.mod_unique with (q := -1); lia).
    rewrite U; lia.
Qed.

Lemma init_Inv_home pin min max minB maxB hm s :
  0 <= min <= max -> max < 2 ^ 16 -> 0 <= minB < maxB -> maxB < 2 ^ 16 ->
  Inv (fst (home (init pin min max minB maxB hm s))).
Proof.
  intros Hm Hm2 Hb Hb2.
  pose proof (constrain_range hm minB maxB ltac:(lia)) as Hc.
  pose proof (map_u16_range (constrain hm minB maxB) minB maxB min max
                ltac:(lia) ltac:(lia) ltac:(lia) ltac:(lia) Hc) as Hr.
  unfold Inv; simpl; lia.
Qed.

Lemma setTarget_range tgt d s :
  0 <= minMS s <= maxMS s -> maxMS s < 2 ^ 16 ->
  let '(s', r) := setTarget tgt d s in
  r = target s' /\ minMS s <= target s' <= maxMS s /\
  minMS s' = minMS s /\ maxMS s' = maxMS s /\ homeMS s' = homeMS s /\
  current s' = current s /\ startAngle s' = current s.
Proof.
  intros H H2; simpl.
  pose proof (constrain_range
    (u16 (s16 (map (s16 (constrain tgt (minBr s) (maxBr s)))
                   (minBr s) (maxBr s) (minMS s) (maxMS s))))
    (minMS s) (maxMS s) ltac:(lia)) as Hc.
  rewrite u16_small by lia; repeat split; lia.
Qed.

(** ** Operation sequences *)

Lemma exec_cons o os s : exec (o :: os) s = exec os (exec_op o s).
Proof. reflexivity. Qed.

Lemma exec_app os1 os2 s : exec (os1 ++ os2) s = exec os2 (exec os1 s).
Proof. unfold exec; apply fold_left_app. Qed.

Ltac unfold_update :=
  unfold update;
  repeat match goal with
  | |- context [if ?b then _ else _] => destruct b
  end; simpl.

(** [home], [setTarget] and [update] never write the configuration. *)
Lemma exec_op_frame o s :
  let s' := exec_op o s in
  attached s' = attached s /\ minBr s' = minBr s /\ maxBr s' = maxBr s /\
  minMS s' = minMS s /\ maxMS s' = maxMS s /\ homeMS s' = homeMS s /\
  minInterval s' = minInterval s /\ startInterval s' = startInterval s /\
  rampUp s' = rampUp s /\ rampDown s' = rampDown s.
Proof.
  destruct o as [|tgt d|now]; simpl; [tauto|tauto|].
  unfold_update; tauto.
Qed.

Lemma exec_frame os s :
  let s' := exec os s in
  attached s' = attached s /\ minBr s' = minBr s /\ maxBr s' = maxBr s /\
  minMS s' = minMS s /\ maxMS s' = maxMS s /\ homeMS s' = homeMS s /\
  minInterval s' = minInterval s /\ startInterval s' = startInterval s /\
  rampUp s' = rampUp s /\ rampDown s' = rampDown s.
Proof.
  revert s; induction os as [|o os IH]; intros s; [simpl; tauto|].
  rewrite exec_cons; simpl.
  specialize (IH (exec_op o s)); pose proof (exec_op_frame o s) as F.
  simpl in IH, F; intuition congruence.
Qed.

Lemma update_startAngle now s : startAngle (fst (update now s)) = startAngle s.
Proof. unfold_update; reflexivity. Qed.

Lemma Inv_wf s : Inv s -> wf s.
Proof. unfold Inv, wf; lia. Qed.

Lemma exec_op_Inv o s : Inv s -> Inv (exec_op o s).
Proof.
  intros HI; destruct o as [|tgt d|now].
  - unfold Inv in *; simpl; lia.
  - pose proof (setTarget_range tgt d s) as R.
    unfold Inv in HI; specialize (R ltac:(lia) ltac:(lia)).
    unfold exec_op; destruct (setTarget tgt d s) as [s' r].
    unfold Inv; cbn [fst].
    destruct R as (_ & Ht & -> & -> & -> & -> & _); lia.
  - pose proof (exec_op_frame (Update now) s) as F; simpl in F.
    destruct F as (_ & _ & _ & Fmin & Fmax & Fhome & _).
    pose proof (update_any now s (Inv_wf s HI)) as U.
    simpl; destruct (update now s) as [s' w]; simpl in *.
    unfold Inv, dist in *; rewrite Fmin, Fmax, Fhome; lia.
Qed.

Lemma exec_op_InvS o s : InvS s -> InvS (exec_op o s).
Proof.
  intros [HI Hs]; split; [apply exec_op_Inv; exact HI|].
  pose proof (exec_op_frame o s) as F; simpl in F.
  destruct F as (_ & _ & _ & Fmin & Fmax & _).
  rewrite Fmin, Fmax.
  destruct o as [|tgt d|now]; simpl; [exact Hs| |rewrite update_startAngle; exact Hs].
  unfold Inv in HI; lia.
Qed.

Lemma setTarget_InvS tgt d s : Inv s -> InvS (fst (setTarget tgt d s)).
Proof.
  intros HI; split; [exact (exec_op_Inv (SetTarget tgt d) s HI)|].
  unfold Inv in HI; simpl; lia.
Qed.

Lemma exec_Inv os s : Inv s -> Inv (exec os s).
Proof.
  revert s; induction os as [|o os IH]; intros s H; [exact H|].
  rewrite exec_cons; apply IH, exec_op_Inv, H.
Qed.

Lemma exec_InvS os s : InvS s -> InvS (exec os s).
Proof.
  revert s; induction os as [|o os IH]; intros s H; [exact H|].
  rewrite exec_cons; apply IH, exec_op_InvS, H.
Qed.

Lemma exec_op_interval_ok o s : interval_ok s -> interval_ok (exec_op o s).
Proof.
  unfold interval_ok; intros H.
  destruct o as [|tgt d|now]; simpl; [lia|lia|].
  unfold update.
  destruct (current s =? target s); [simpl; lia|].
  destruct (interval s <? u32 (now - previousMillis s)); [|simpl; lia].
  simpl; unfold ramp, u8.
  repeat match goal with
  | |- context [?x <? ?y] => destruct (Z.ltb_spec x y)
  end; try rewrite Z.mod_small by lia; lia.
Qed.

Lemma exec_interval_ok os s : interval_ok s -> interval_ok (exec os s).
Proof.
  revert s; induction os as [|o os IH]; intros s H; [exact H|].
  rewrite exec_cons; apply IH, exec_op_interval_ok, H.
Qed.

Lemma setTarget_interval_ok tgt d s :
  0 <= minInterval s -> 0 <= startInterval s < 2 ^ 8 ->
  interval_ok (fst (setTarget tgt d s)).
Proof. intros; unfold interval_ok; simpl; lia. Qed.

(** On a downward move the phase rule of [update] is the spec's rule: the
    unsigned subtraction [current - target] does not wrap there. *)
Lemma update_down_phase now s :
  wf s -> target s < current s -> current s - target s < 2 ^ 15 ->
  interval s < u32 (now - previousMillis s) ->
  0 <= minInterval s -> 0 <= interval s < 2 ^ 8 -> startInterval s < 2 ^ 8 ->
  interval (fst (update now s)) = spec_ramp s.
Proof.
  intros Hwf Hlt Hsm Hgt Hmin Hi Hst.
  destruct (update_open_eq now s ltac:(lia) Hgt) as (s' & E & _ & _ & _ & _ & _ & Hi').
  rewrite E; cbn [fst]; rewrite Hi'.
  rewrite (u16_small (current s - target s)) by lia.
  unfold abs_uint; destruct (Z.ltb_spec 0 (current s - target s)); [|lia].
  rewrite s16_small by lia.
  unfold ramp, spec_ramp, u8; rewrite Z.abs_eq by lia.
  repeat match goal with
  | |- context [?x <? ?y] => destruct (Z.ltb_spec x y)
  end; try rewrite Z.mod_small by lia; lia.
Qed.

(** With angle and pulse bounds below 2^15 and no [long] overflow in
    [map], [setTarget] returns the spec's clamp-map-clamp value. *)
Lemma setTarget_small_ranges tgt d s :
  0 <= minBr s < maxBr s -> maxBr s < 2 ^ 15 ->
  0 <= minMS s <= maxMS s -> maxMS s < 2 ^ 15 ->
  (maxBr s - minBr s) * (maxMS s - minMS s) < 2 ^ 31 ->
  snd (setTarget tgt d s) = spec_resolve tgt s.
Proof.
  intros Hb Hb2 Hm Hm2 Hp; simpl.
  pose proof (constrain_range tgt (minBr s) (maxBr s) ltac:(lia)) as Hc.
  rewrite (s16_small (constrain tgt (minBr s) (maxBr s))) by lia.
  destruct (map_exact (constrain tgt (minBr s) (maxBr s)) (minBr s) (maxBr s)
              (minMS s) (maxMS s) ltac:(lia) ltac:(lia) ltac:(lia) ltac:(lia)
              ltac:(lia) Hc) as [Hm3 Hr].
  rewrite s16_small by lia.
  rewrite (u16_small (map (constrain tgt (minBr s) (maxBr s)) (minBr s) (maxBr s)
                          (minMS s) (maxMS s))) by lia.
  rewrite constrain_in by lia; rewrite u16_small by lia.
  unfold spec_resolve.
  rewrite Z.quot_div_nonneg; [| apply Z.mul_nonneg_nonneg; lia | lia].
  rewrite <- Hm3; symmetry; apply constrain_in; lia.
Qed.

(** ** The claims *)

(** C1: the phase rule is not the spec's [remaining = |current - target|]
    rule on an upward move: [current - target] is computed on the 16-bit
    [unsigned int], wraps, and [remaining] becomes negative, so the
    accelerating branch (600 > rampUp = 200) is replaced by the
    decelerating one: [interval] stays at 20 where the spec's rule gives 19. *)
Theorem update_up_move_takes_decelerating_branch :
  let '(s', w) := update 100 up_move in
  current up_move = 1000 /\ target up_move = 1600 /\
  rampUp up_move = 200 /\ rampDown up_move = 66 /\ interval up_move = 20 /\
  s16 (abs_uint (u16 (current up_move - target up_move))) = -600 /\
  w = [1001] /\ interval s' = 20 /\ spec_ramp up_move = 19.
Proof. vm_compute; repeat split. Qed.

(** C2: an effective call of [update] moves [current] exactly one unit
    toward [target] and writes it; over any sequence of calls the distance
    to [target] drops by exactly one per write and [current] never crosses
    [target]. *)
Theorem update_moves_one_unit_toward_target (s : AsyncServo) (now : Z) (ts : list Z) :
  wf s ->
  (current s <> target s -> interval s < u32 (now - previousMillis s) ->
   let '(s', w) := update now s in
   w = [current s'] /\ target s' = target s /\
   (current s < target s -> current s' = current s + 1) /\
   (target s < current s -> current s' = current s - 1) /\
   dist s' + 1 = dist s) /\
  (let '(s', w) := run ts s in
   target s' = target s /\ dist s' + Z.of_nat (length w) = dist s /\
   (current s <= target s -> current s' <= target s) /\
   (target s <= current s -> target s <= current s')).
Proof.
  intros Hwf; split.
  - intros Hne Hgt; pose proof (update_open_step now s Hwf Hne Hgt) as H.
    destruct (update now s) as [s' w]; tauto.
  - pose proof (run_any ts s Hwf) as H.
    destruct (run ts s) as [s' w]; tauto.
Qed.

Lemma scenario_90_fields :
  current scenario_90 = 1500 /\ target scenario_90 = 2000 /\
  previousMillis scenario_90 = 0 /\ interval scenario_90 = 0.
Proof. vm_compute; repeat split. Qed.

Lemma update_moves_one_unit_toward_target_witness :
  wf scenario_90 /\
  (current scenario_90 <> target scenario_90 ->
   interval scenario_90 < u32 (1 - previousMillis scenario_90) ->
   let '(s', w) := update 1 scenario_90 in
   w = [current s'] /\ target s' = target scenario_90 /\
   (current scenario_90 < target scenario_90 -> current s' = current scenario_90 + 1) /\
   (target scenario_90 < current scenario_90 -> current s' = current scenario_90 - 1) /\
   dist s' + 1 = dist scenario_90) /\
  (let '(s', w) := run (ticks 1 600) scenario_90 in
   target s' = target scenario_90 /\
   dist s' + Z.of_nat (length w) = dist scenario_90 /\
   (current scenario_90 <= target scenario_90 -> current s' <= target scenario_90) /\
   (target scenario_90 <= current scenario_90 -> target scenario_90 <= current s')).
Proof.
  assert (H : wf scenario_90).
  { destruct scenario_90_fields as (Hc & Ht & _); unfold wf; rewrite Hc, Ht; lia. }
  split; [exact H|].
  exact (update_moves_one_unit_toward_target scenario_90 1 (ticks 1 600) H).
Defined.

(** C3: with the angle range 0..32768 (180 degrees in 16-bit brads) and
    the pulse range 1000..2000, [setTarget] at the upper bound 32768, and
    above it at 50000, resolves to 1000 where the spec's clamp-map-clamp
    gives 2000: the clamped angle is stored in an [int16_t] and wraps to
    -32768 before [map]. *)
Theorem setTarget_upper_bound_wraps_to_min :
  let s := fst (home (init 9 1000 2000 0 32768 0 global_servo)) in
  let '(s', r) := setTarget 32768 500 s in
  r = 1000 /\ target s' = 1000 /\ spec_resolve 32768 s = 2000 /\
  s16 (constrain 32768 (minBr s) (maxBr s)) = -32768 /\
  snd (setTarget 50000 500 s) = 1000 /\ spec_resolve 50000 s = 2000.
Proof. vm_compute; repeat split. Qed.

(** C4 (counterexample): with a pulse range of 1 both thresholds are 0;
    with the range 1000..2000 the 8-bit fields hold 333 mod 256 = 77 and
    111, so [rampDown] exceeds [rampUp]. *)
Lemma init_ramp_thresholds_not_ordered :
  let s := init 9 1000 1001 0 180 0 global_servo in
  let s' := init 9 1000 2000 0 180 0 global_servo in
  rampUp s = 0 /\ rampDown s = 0 /\ ~ (rampDown s < rampUp s) /\
  rampUp s' = 77 /\ rampDown s' = 111 /\ ~ (rampDown s' < rampUp s').
Proof.
  vm_compute; repeat split; intros H; discriminate H.
Qed.

(** C4: when the pulse range [max - min] is between 1 and 767 (so that
    [(max - min) / 3] fits the 8-bit field), [init] stores
    [rampUp = (max - min) / 3] and [rampDown = (max - min) / 9], and no
    later [home], [setTarget] or [update] changes them; with a range of at
    least 3, [rampDown < rampUp]; with a range of 1 or 2 both are 0. *)
Theorem init_ramp_thresholds_ordered (pin min max minB maxB hm : Z)
  (s : AsyncServo) (os : list op) :
  0 <= min -> max < 2 ^ 16 -> 1 <= max - min < 768 ->
  let s1 := init pin min max minB maxB hm s in
  rampUp s1 = (max - min) / 3 /\ rampDown s1 = (max - min) / 9 /\
  rampUp (exec os s1) = rampUp s1 /\ rampDown (exec os s1) = rampDown s1 /\
  (3 <= max - min -> rampDown (exec os s1) < rampUp (exec os s1)) /\
  (max - min <= 2 -> rampUp s1 = 0 /\ rampDown s1 = 0).
Proof.
  intros Hmin Hmax Hd s1.
  pose proof (exec_frame os s1) as F; simpl in F.
  destruct F as (_ & _ & _ & _ & _ & _ & _ & _ & -> & ->).
  subst s1; simpl; unfold u8; rewrite u16_small by lia.
  assert (H3 : 0 <= (max - min) / 3 < 2 ^ 8).
  { split; [apply Z.div_pos | apply Z.div_lt_upper_bound]; lia. }
  assert (H9 : 0 <= (max - min) / 9 <= (max - min) / 3).
  { split; [apply Z.div_pos; lia|].
    apply Z.div_le_compat_l; lia. }
  rewrite !Z.mod_small by lia.
  split; [reflexivity|]; split; [reflexivity|]; split; [reflexivity|].
  split; [reflexivity|]; split.
  - intros H; assert (1 <= (max - min) / 3)
      by (apply Z.div_le_lower_bound; lia).
    pose proof (Z.div_mod (max - min) 9 ltac:(lia)).
    pose proof (Z.mod_pos_bound (max - min) 9 ltac:(lia)).
    pose proof (Z.div_mod (max - min) 3 ltac:(lia)).
    pose proof (Z.mod_pos_bound (max - min) 3 ltac:(lia)).
    lia.
  - intros H; split; apply Z.div_small; lia.
Qed.

Lemma init_ramp_thresholds_ordered_witness :
  (0 <= 1000 /\ 1600 < 2 ^ 16 /\ 1 <= 1600 - 1000 < 768) /\
  (let s1 := init 9 1000 1600 0 180 0 global_servo in
   let os := [Home; SetTarget 180 0; Update 100] in
   rampUp s1 = (1600 - 1000) / 3 /\ rampDown s1 = (1600 - 1000) / 9 /\
   rampUp (exec os s1) = rampUp s1 /\ rampDown (exec os s1) = rampDown s1 /\
   (3 <= 1600 - 1000 -> rampDown (exec os s1) < rampUp (exec os s1)) /\
   (1600 - 1000 <= 2 -> rampUp s1 = 0 /\ rampDown s1 = 0)).
Proof.
  split; [lia|].
  exact (init_ramp_thresholds_ordered 9 1000 1600 0 180 0 global_servo
           [Home; SetTarget 180 0; Update 100] ltac:(lia) ltac:(lia) ltac:(lia)).
Defined.

(** C5: on a global object [startInterval] is never assigned and stays 0,
    so [setTarget] installs [interval = 0], below [minInterval = 5], and
    the whole ramp 1500 -> 2000 runs with [interval = 0]. *)
Theorem setTarget_interval_below_minInterval :
  interval scenario_90 = 0 /\ startInterval scenario_90 = 0 /\
  minInterval scenario_90 = 5 /\ interval scenario_90 < minInterval scenario_90 /\
  interval (fst (run (ticks 1 600) scenario_90)) = 0.
Proof. vm_compute; repeat split. Qed.

(** C6: while [current <> target], a call with [now - previousMillis]
    (modulo 2^32) at most [interval] changes nothing and writes nothing;
    a later call records [now], writes once and moves one unit.  The
    modular difference is the true elapsed time whenever it is below 2^32,
    also after the millisecond counter wrapped. *)
Theorem update_rate_gate (s : AsyncServo) (now : Z) :
  wf s -> current s <> target s ->
  (u32 (now - previousMillis s) <= interval s -> update now s = (s, [])) /\
  (interval s < u32 (now - previousMillis s) ->
   let '(s', w) := update now s in
   previousMillis s' = now /\ w = [current s'] /\ target s' = target s /\
   dist s' + 1 = dist s) /\
  (forall P T, 0 <= P <= T -> T < P + 2 ^ 32 -> previousMillis s = u32 P ->
   u32 (u32 T - previousMillis s) = T - P).
Proof.
  intros Hwf Hne; split; [|split].
  - apply update_closed_eq.
  - intros Hgt; pose proof (update_open_step now s Hwf Hne Hgt) as H.
    destruct (update now s) as [s' w]; tauto.
  - intros P T HP HT ->; unfold u32.
    rewrite <- Zminus_mod; apply Z.mod_small; lia.
Qed.

Lemma update_rate_gate_witness :
  (wf scenario_90 /\ current scenario_90 <> target scenario_90) /\
  (u32 (3 - previousMillis scenario_90) <= interval scenario_90 ->
   update 3 scenario_90 = (scenario_90, [])) /\
  (interval scenario_90 < u32 (3 - previousMillis scenario_90) ->
   let '(s', w) := update 3 scenario_90 in
   previousMillis s' = 3 /\ w = [current s'] /\ target s' = target scenario_90 /\
   dist s' + 1 = dist scenario_90) /\
  (forall P T, 0 <= P <= T -> T < P + 2 ^ 32 -> previousMillis scenario_90 = u32 P ->
   u32 (u32 T - previousMillis scenario_90) = T - P).
Proof.
  destruct scenario_90_fields as (Hc & Ht & _).
  assert (H : wf scenario_90) by (unfold wf; rewrite Hc, Ht; lia).
  assert (Hne : current scenario_90 <> target scenario_90) by (rewrite Hc, Ht; lia).
  split; [split; assumption|].
  exact (update_rate_gate scenario_90 3 H Hne).
Defined.

(** A step taken 4 ms before the 32-bit counter wraps; the next call comes
    3 ms after the wrap and sees 7 ms elapsed. *)
Lemma update_gate_across_wrap :
  let s := fst (update (2 ^ 32 - 4) scenario_90) in
  previousMillis s = 2 ^ 32 - 4 /\ current s = 1501 /\
  u32 (3 - previousMillis s) = 7 /\
  current (fst (update 3 s)) = 1502 /\ snd (update 3 s) = [1502].
Proof. vm_compute; repeat split. Qed.

(** C7: when [current = target], [update] at any timestamp returns the
    object unchanged and writes nothing, and so does any sequence of
    calls. *)
Theorem update_idle_noop (s : AsyncServo) (now : Z) (ts : list Z) :
  current s = target s -> update now s = (s, []) /\ run ts s = (s, []).
Proof.
  intros H; split; [apply update_idle_eq | apply run_idle]; exact H.
Qed.

Lemma update_idle_noop_witness :
  let s := fst (run (ticks 1 600) scenario_90) in
  current s = target s /\
  update 12345 s = (s, []) /\ run (ticks 700 50) s = (s, []).
Proof.
  assert (H : current (fst (run (ticks 1 600) scenario_90)) =
              target (fst (run (ticks 1 600) scenario_90))) by (vm_compute; reflexivity).
  split; [exact H|].
  exact (update_idle_noop _ 12345 (ticks 700 50) H).
Defined.

(** C8 (counterexample): the last argument of [init] is an angle, so
    [home = 1500] is clamped to [maxB = 180] and [home()] moves to 2000,
    not 1500. *)
Lemma home_argument_is_an_angle :
  let '(s, w) := home (init 9 1000 2000 0 180 1500 global_servo) in
  current s = 2000 /\ target s = 2000 /\ w = [2000] /\ current s <> 1500.
Proof. vm_compute; repeat split; intros H; discriminate H. Qed.

(** C8: after [init(pin, 1000, 2000, 0, 180, 1500)] on any object,
    [home()] sets [current = target = 2000] and writes 2000;
    [setTarget(180, 500)] stores and returns 2000; [current] already equals
    [target], so every later sequence of [update] calls is a no-op. *)
Theorem home_scenario_1500 (pin : Z) (s0 : AsyncServo) (ts : list Z) :
  let '(s1, w1) := home (init pin 1000 2000 0 180 1500 s0) in
  let '(s2, r) := setTarget 180 500 s1 in
  current s1 = 2000 /\ target s1 = 2000 /\ w1 = [2000] /\
  r = 2000 /\ target s2 = 2000 /\ current s2 = 2000 /\
  run ts s2 = (s2, []).
Proof.
  cbv -[run].
  repeat match goal with |- _ /\ _ => split end;
    [reflexivity .. | apply run_idle; reflexivity].
Qed.

(** With the home angle 90 instead, the same scenario ramps from 1500 to
    2000 at a 1 ms cadence in 500 writes and is then idle. *)
Lemma home_scenario_90 :
  let '(s, w) := run (ticks 1 600) scenario_90 in
  current scenario_90 = 1500 /\ target scenario_90 = 2000 /\
  current s = 2000 /\ length w = 500%nat /\ run (ticks 601 100) s = (s, []).
Proof. vm_compute; repeat split. Qed.

(** C9 (counterexample): [init] does not touch the positions, which keep
    their initial value 0, outside the pulse range 1000..2000, until
    [home()] runs. *)
Lemma positions_outside_range_before_home :
  let s := init 9 1000 2000 0 180 90 global_servo in
  current s = 0 /\ target s = 0 /\ startAngle s = 0 /\ ~ (minMS s <= current s).
Proof. vm_compute; repeat split; intros H; apply H; reflexivity. Qed.

(** C9: with [min < max] and [minB < maxB] (all 16-bit), after [init] and
    [home()] the positions [current] and [target] lie in [[min, max]] and
    every sequence of [home], [setTarget] and [update] keeps them there;
    from the first [setTarget] on, [startAngle] lies in [[min, max]] as
    well.  [init] itself leaves the three positions untouched: on a newly
    constructed object they are still 0 right after [init]. *)
Theorem positions_in_range (pin min max minB maxB hm : Z) (s0 junk : AsyncServo)
  (os os' : list op) (tgt d : Z) :
  0 <= min < max -> max < 2 ^ 16 -> 0 <= minB < maxB -> maxB < 2 ^ 16 ->
  let s1 := fst (home (init pin min max minB maxB hm s0)) in
  let s2 := exec os s1 in
  let s3 := exec os' (fst (setTarget tgt d s2)) in
  let f := init pin min max minB maxB hm (fresh junk) in
  min <= current s2 <= max /\ min <= target s2 <= max /\
  min <= current s3 <= max /\ min <= target s3 <= max /\
  min <= startAngle s3 <= max /\
  current f = 0 /\ target f = 0 /\ startAngle f = 0.
Proof.
  intros Hm Hm2 Hb Hb2.
  cut (let s1 := fst (home (init pin min max minB maxB hm s0)) in
       let s2 := exec os s1 in
       let s3 := exec os' (fst (setTarget tgt d s2)) in
       min <= current s2 <= max /\ min <= target s2 <= max /\
       min <= current s3 <= max /\ min <= target s3 <= max /\
       min <= startAngle s3 <= max).
  { intros H; cbv zeta in H |- *.
    destruct H as (H1 & H2 & H3 & H4 & H5).
    split; [exact H1|]; split; [exact H2|]; split; [exact H3|].
    split; [exact H4|]; split; [exact H5|].
    split; [reflexivity|]; split; reflexivity. }
  pose proof (init_Inv_home pin min max minB maxB hm s0
                ltac:(lia) ltac:(lia) ltac:(lia) ltac:(lia)) as I1.
  assert (E1 : minMS (fst (home (init pin min max minB maxB hm s0))) = min /\
               maxMS (fst (home (init pin min max minB maxB hm s0))) = max)
    by (split; reflexivity).
  generalize dependent (fst (home (init pin min max minB maxB hm s0))).
  intros s1 I1 E1; cbv zeta.
  pose proof (exec_Inv os s1 I1) as I2.
  pose proof (exec_frame os s1) as F2; cbv zeta in F2.
  pose proof (exec_InvS os' _ (setTarget_InvS tgt d _ I2)) as I3.
  pose proof (exec_frame os' (fst (setTarget tgt d (exec os s1)))) as F3;
    cbv zeta in F3.
  assert (E3 : minMS (fst (setTarget tgt d (exec os s1))) = minMS (exec os s1) /\
               maxMS (fst (setTarget tgt d (exec os s1))) = maxMS (exec os s1))
    by (split; reflexivity).
  destruct E1 as [M1 X1]; destruct E3 as [M3' X3'].
  destruct F2 as (_ & _ & _ & M2 & X2 & _); destruct F3 as (_ & _ & _ & M3 & X3 & _).
  destruct I2 as (_ & _ & _ & Hc2 & Ht2).
  destruct I3 as [(_ & _ & _ & Hc3 & Ht3) Hs3].
  rewrite M3, M3', M2, M1 in Hc3, Ht3, Hs3; rewrite X3, X3', X2, X1 in Hc3, Ht3, Hs3.
  rewrite M2, M1 in Hc2, Ht2; rewrite X2, X1 in Hc2, Ht2.
  clear - Hc2 Ht2 Hc3 Ht3 Hs3; repeat split; tauto.
Qed.

(** The range 1000..60000 with angles 0..60000 makes the [long] product
    in [map] overflow; the home position is still in range. *)
Lemma positions_in_range_witness :
  (0 <= 1000 < 60000 /\ 60000 < 2 ^ 16 /\ 0 <= 0 < 60000 /\ 60000 < 2 ^ 16) /\
  (let s1 := fst (home (init 9 1000 60000 0 60000 60000 global_servo)) in
   let s2 := exec [Update 5; SetTarget 0 0; Update 10; Update 20] s1 in
   let s3 := exec [Update 30; Home; Update 40] (fst (setTarget 200 0 s2)) in
   let f := init 9 1000 60000 0 60000 60000 (fresh zeros) in
   1000 <= current s2 <= 60000 /\ 1000 <= target s2 <= 60000 /\
   1000 <= current s3 <= 60000 /\ 1000 <= target s3 <= 60000 /\
   1000 <= startAngle s3 <= 60000 /\
   current f = 0 /\ target f = 0 /\ startAngle f = 0).
Proof.
  split; [lia|].
  exact (positions_in_range 9 1000 60000 0 60000 60000 global_servo zeros
           [Update 5; SetTarget 0 0; Update 10; Update 20]
           [Update 30; Home; Update 40] 200 0
           ltac:(lia) ltac:(lia) ltac:(lia) ltac:(lia)).
Defined.

(** C10: [init] attaches the pin and writes the angle bounds, the pulse
    bounds, [homeMS], [rampUp] and [rampDown] only; the positions,
    [interval], [previousMillis], [minInterval] and [startInterval] are left
    as they were.  No operation writes [startInterval], and [setTarget]
    installs [interval = startInterval]. *)
Theorem init_frame_startInterval_never_assigned
  (pin min max minB maxB hm : Z) (s : AsyncServo) (os : list op) (tgt d : Z) :
  let s1 := init pin min max minB maxB hm s in
  (attached s1 = Some pin /\ minBr s1 = minB /\ maxBr s1 = maxB /\
   minMS s1 = min /\ maxMS s1 = max /\
   current s1 = current s /\ target s1 = target s /\
   startAngle s1 = startAngle s /\ interval s1 = interval s /\
   previousMillis s1 = previousMillis s /\ minInterval s1 = minInterval s /\
   startInterval s1 = startInterval s) /\
  startInterval (exec os s1) = startInterval s /\
  interval (fst (setTarget tgt d (exec os s1))) = startInterval s.
Proof.
  intros s1.
  pose proof (exec_frame os s1) as F; cbv zeta in F.
  destruct F as (_ & _ & _ & _ & _ & _ & _ & Fs & _).
  split; [repeat split|].
  split; [exact Fs|].
  change (startInterval (exec os s1) = startInterval s); exact Fs.
Qed.

(** ** Further properties of the class *)

(** [target] after [setTarget] when the ranges are small enough that no
    [int16_t] or [long] wraps. *)
Lemma setTarget_target_small tgt d s :
  0 <= minBr s < maxBr s -> maxBr s < 2 ^ 15 ->
  0 <= minMS s <= maxMS s -> maxMS s < 2 ^ 15 ->
  (maxBr s - minBr s) * (maxMS s - minMS s) < 2 ^ 31 ->
  target (fst (setTarget tgt d s)) =
    (constrain tgt (minBr s) (maxBr s) - minBr s) * (maxMS s - minMS s)
      / (maxBr s - minBr s) + minMS s /\
  minMS s <= target (fst (setTarget tgt d s)) <= maxMS s.
Proof.
  intros Hb Hb2 Hm Hm2 Hp; cbn [fst setTarget target].
  pose proof (constrain_range tgt (minBr s) (maxBr s) ltac:(lia)) as Hc.
  rewrite (s16_small (constrain tgt (minBr s) (maxBr s))) by lia.
  destruct (map_exact (constrain tgt (minBr s) (maxBr s)) (minBr s) (maxBr s)
              (minMS s) (maxMS s) ltac:(lia) ltac:(lia) ltac:(lia) ltac:(lia)
              ltac:(lia) Hc) as [Hm3 Hr].
  rewrite s16_small by lia.
  rewrite (u16_small (map (constrain tgt (minBr s) (maxBr s)) (minBr s) (maxBr s)
                          (minMS s) (maxMS s))) by lia.
  rewrite constrain_in by lia; rewrite u16_small by lia.
  rewrite <- Hm3; lia.
Qed.

(** [getTarget] is the integer linear map back onto the angle range. *)
Lemma getTarget_exact s :
  0 <= minBr s <= maxBr s -> maxBr s < 2 ^ 16 ->
  0 <= minMS s < maxMS s -> maxMS s < 2 ^ 16 ->
  (maxBr s - minBr s) * (maxMS s - minMS s) < 2 ^ 31 ->
  minMS s <= target s <= maxMS s ->
  getTarget s = (target s - minMS s) * (maxBr s - minBr s) / (maxMS s - minMS s)
                + minBr s /\
  minBr s <= getTarget s <= maxBr s.
Proof.
  intros Hb Hb2 Hm Hm2 Hp Ht; unfold getTarget.
  destruct (map_exact (target s) (minMS s) (maxMS s) (minBr s) (maxBr s)
              ltac:(lia) ltac:(lia) ltac:(lia) ltac:(lia) ltac:(nia) Ht) as [E R].
  rewrite u16_small by lia; split; [exact E | exact R].
Qed.

Lemma update_interval_range now s :
  0 <= interval s < 2 ^ 8 -> 0 <= interval (fst (update now s)) < 2 ^ 8.
Proof.
  intros H; unfold update.
  destruct (current s =? target s); [exact H|].
  destruct (interval s <? u32 (now - previousMillis s)); [|exact H].
  cbn [fst interval]; unfold ramp, u8.
  repeat match goal with
  | |- context [if ?b then _ else _] => destruct b
  end; try apply Z.mod_pos_bound; lia.
Qed.

(** Polling every millisecond: starting [e] ms (1 <= e <= 256) after the
    last step, [n] calls take at least [(e + n - 1) / 256] steps, or finish. *)
Lemma run_ticks32_progress (n : nat) : forall s p e,
  wf s -> 0 <= interval s < 2 ^ 8 -> previousMillis s = u32 p -> 0 <= p ->
  1 <= e <= 2 ^ 8 ->
  dist (fst (run (ticks32 (p + e) n) s)) <=
    Z.max 0 (dist s - (e + Z.of_nat n - 1) / 2 ^ 8).
Proof.
  induction n as [|n IH]; intros s p e Hwf Hi Hp Hp0 He.
  - cbn [run ticks32 fst].
    assert (Hq : (e + Z.of_nat 0 - 1) / 2 ^ 8 = 0)
      by (apply Z.div_small; lia).
    rewrite Hq; unfold dist; lia.
  - cbn [ticks32 run].
    destruct (Z.eq_dec (current s) (target s)) as [Hid|Hne].
    { rewrite (update_idle_eq _ s Hid).
      destruct (run (ticks32 (p + e + 1) n) s) as [s2 w2] eqn:E.
      pose proof (run_idle (ticks32 (p + e + 1) n) s Hid) as R.
      rewrite E in R; injection R as -> _; cbn [fst]; unfold dist; lia. }
    assert (Hel : u32 (u32 (p + e) - previousMillis s) = e).
    { rewrite Hp; unfold u32; rewrite <- Zminus_mod.
      replace (p + e - p) with e by lia; apply Z.mod_small; lia. }
    destruct (Z.le_gt_cases e (interval s)) as [Hle|Hgt].
    + rewrite (update_closed_eq (u32 (p + e)) s ltac:(lia)).
      specialize (IH s p (e + 1) Hwf Hi Hp Hp0 ltac:(lia)).
      replace (p + (e + 1)) with (p + e + 1) in IH by lia.
      destruct (run (ticks32 (p + e + 1) n) s) as [s2 w2]; cbn [fst] in *.
      replace (e + 1 + Z.of_nat n - 1) with (e + Z.of_nat (S n) - 1) in IH by lia.
      exact IH.
    + pose proof (update_open_step (u32 (p + e)) s Hwf Hne ltac:(lia)) as St.
      pose proof (update_open_eq (u32 (p + e)) s Hne ltac:(lia)) as (s1 & E1 & _ & _ & Hp1 & _).
      pose proof (update_wf (u32 (p + e)) s Hwf) as Hwf1.
      pose proof (update_interval_range (u32 (p + e)) s Hi) as Hi1.
      rewrite E1 in St, Hwf1, Hi1 |- *; cbn [fst] in Hwf1, Hi1.
      destruct St as (_ & _ & _ & _ & _ & Hd).
      specialize (IH s1 (p + e) 1 Hwf1 Hi1 Hp1 ltac:(lia) ltac:(lia)).
      destruct (run (ticks32 (p + e + 1) n) s1) as [s2 w2]; cbn [fst] in *.
      assert (Hq : (e + Z.of_nat (S n) - 1) / 2 ^ 8 <= (1 + Z.of_nat n - 1) / 2 ^ 8 + 1).
      { rewrite <- (Z.div_add (1 + Z.of_nat n - 1) 1 (2 ^ 8)) by lia.
        apply Z.div_le_mono; lia. }
      assert (0 <= (1 + Z.of_nat n - 1) / 2 ^ 8) by (apply Z.div_pos; lia).
      lia.
Qed.

(** [getTarget] maps every in-range [target] into the angle range, and the
    two ends of the pulse range onto the two ends of the angle range. *)
Theorem getTarget_range_and_ends (s : AsyncServo) :
  0 <= minBr s <= maxBr s -> maxBr s < 2 ^ 16 ->
  0 <= minMS s < maxMS s -> maxMS s < 2 ^ 16 ->
  (maxBr s - minBr s) * (maxMS s - minMS s) < 2 ^ 31 ->
  minMS s <= target s <= maxMS s ->
  minBr s <= getTarget s <= maxBr s /\
  (target s = minMS s -> getTarget s = minBr s) /\
  (target s = maxMS s -> getTarget s = maxBr s).
Proof.
  intros Hb Hb2 Hm Hm2 Hp Ht.
  destruct (getTarget_exact s Hb Hb2 Hm Hm2 Hp Ht) as [E R].
  split; [exact R|split; intros Hx; rewrite E, Hx].
  - rewrite Z.sub_diag, Z.mul_0_l, Z.div_0_l by lia; lia.
  - rewrite Z.mul_comm, Z.div_mul by lia; lia.
Qed.

Lemma getTarget_range_and_ends_witness :
  let s := scenario_90 in
  (0 <= minBr s <= maxBr s /\ maxBr s < 2 ^ 16 /\ 0 <= minMS s < maxMS s /\
   maxMS s < 2 ^ 16 /\ (maxBr s - minBr s) * (maxMS s - minMS s) < 2 ^ 31 /\
   minMS s <= target s <= maxMS s) /\
  (minBr s <= getTarget s <= maxBr s /\
   (target s = minMS s -> getTarget s = minBr s) /\
   (target s = maxMS s -> getTarget s = maxBr s)).
Proof.
  assert (E : minBr scenario_90 = 0 /\ maxBr scenario_90 = 180 /\
              minMS scenario_90 = 1000 /\ maxMS scenario_90 = 2000 /\
              target scenario_90 = 2000) by (vm_compute; repeat split).
  destruct E as (E1 & E2 & E3 & E4 & E5).
  cbv zeta; rewrite E1, E2, E3, E4, E5 at 1.
  split; [lia|].
  apply getTarget_range_and_ends; rewrite ?E1, ?E2, ?E3, ?E4, ?E5; lia.
Defined.

(** When the angle range divides the pulse range, reading the target back
    with [getTarget] returns exactly the clamped angle given to [setTarget]. *)
Theorem getTarget_setTarget_exact (tgt d : Z) (s : AsyncServo) :
  0 <= minBr s < maxBr s -> maxBr s < 2 ^ 15 ->
  0 <= minMS s < maxMS s -> maxMS s < 2 ^ 15 ->
  (maxBr s - minBr s) * (maxMS s - minMS s) < 2 ^ 31 ->
  (maxMS s - minMS s) mod (maxBr s - minBr s) = 0 ->
  getTarget (fst (setTarget tgt d s)) = constrain tgt (minBr s) (maxBr s).
Proof.
  intros Hb Hb2 Hm Hm2 Hp Hdiv.
  destruct (setTarget_target_small tgt d s Hb Hb2 ltac:(lia) Hm2 Hp) as [T Rg].
  set (s' := fst (setTarget tgt d s)) in *.
  assert (F : minBr s' = minBr s /\ maxBr s' = maxBr s /\
              minMS s' = minMS s /\ maxMS s' = maxMS s) by (repeat split).
  destruct F as (F1 & F2 & F3 & F4).
  destruct (getTarget_exact s') as [G _]; rewrite ?F1, ?F2, ?F3, ?F4; try lia.
  rewrite G, F1, F2, F3, F4, T.
  pose proof (constrain_range tgt (minBr s) (maxBr s) ltac:(lia)) as Hc.
  set (x := constrain tgt (minBr s) (maxBr s) - minBr s) in *.
  set (B := maxBr s - minBr s) in *; set (R := maxMS s - minMS s) in *.
  assert (HR : R = B * (R / B)) by (apply Z_div_exact_full_2; [lia | exact Hdiv]).
  set (m := R / B) in HR.
  assert (Hm0 : 0 < m) by nia.
  assert (E1 : x * R / B = x * m).
  { rewrite HR, (Z.mul_comm B m), Z.mul_assoc, Z.div_mul; lia. }
  rewrite E1.
  replace (x * m + minMS s - minMS s) with (x * m) by lia.
  assert (E2 : x * m * B / R = x).
  { rewrite HR at 1; rewrite (Z.mul_comm B m), <- Z.mul_assoc, Z.div_mul; nia. }
  rewrite E2; unfold x; lia.
Qed.

Lemma getTarget_setTarget_exact_witness :
  let s := fst (home (init 9 1000 2000 0 100 0 global_servo)) in
  (0 <= minBr s < maxBr s /\ maxBr s < 2 ^ 15 /\ 0 <= minMS s < maxMS s /\
   maxMS s < 2 ^ 15 /\ (maxBr s - minBr s) * (maxMS s - minMS s) < 2 ^ 31 /\
   (maxMS s - minMS s) mod (maxBr s - minBr s) = 0) /\
  getTarget (fst (setTarget 37 0 s)) = constrain 37 (minBr s) (maxBr s).
Proof.
  cbv zeta.
  assert (H : 0 <= 0 < 100 /\ 100 < 2 ^ 15 /\ 0 <= 1000 < 2000 /\
              2000 < 2 ^ 15 /\ (100 - 0) * (2000 - 1000) < 2 ^ 31 /\
              (2000 - 1000) mod (100 - 0) = 0) by (repeat split; try lia; reflexivity).
  split; [exact H|].
  destruct H as (H1 & H2 & H3 & H4 & H5 & H6).
  exact (getTarget_setTarget_exact 37 0
           (fst (home (init 9 1000 2000 0 100 0 global_servo))) H1 H2 H3 H4 H5 H6).
Defined.

(** When the angle range is no wider than the pulse range, [getTarget]
    after [setTarget] returns the clamped angle or one brad less. *)
Theorem getTarget_setTarget_within_one (tgt d : Z) (s : AsyncServo) :
  0 <= minBr s < maxBr s -> maxBr s < 2 ^ 15 ->
  0 <= minMS s < maxMS s -> maxMS s < 2 ^ 15 ->
  (maxBr s - minBr s) * (maxMS s - minMS s) < 2 ^ 31 ->
  maxBr s - minBr s <= maxMS s - minMS s ->
  constrain tgt (minBr s) (maxBr s) - 1 <= getTarget (fst (setTarget tgt d s)) <=
    constrain tgt (minBr s) (maxBr s).
Proof.
  intros Hb Hb2 Hm Hm2 Hp Hle.
  destruct (setTarget_target_small tgt d s Hb Hb2 ltac:(lia) Hm2 Hp) as [T R].
  set (s' := fst (setTarget tgt d s)) in *.
  assert (F : minBr s' = minBr s /\ maxBr s' = maxBr s /\
              minMS s' = minMS s /\ maxMS s' = maxMS s) by (repeat split).
  destruct F as (F1 & F2 & F3 & F4).
  destruct (getTarget_exact s') as [G _]; rewrite ?F1, ?F2, ?F3, ?F4; try lia.
  rewrite G, F1, F2, F3, F4, T.
  pose proof (constrain_range tgt (minBr s) (maxBr s) ltac:(lia)) as Hc.
  set (x := constrain tgt (minBr s) (maxBr s) - minBr s) in *.
  set (B := maxBr s - minBr s) in *; set (Rr := maxMS s - minMS s) in *.
  replace (x * Rr / B + minMS s - minMS s) with (x * Rr / B) by lia.
  set (k := x * Rr / B).
  pose proof (Z.div_mod (x * Rr) B ltac:(lia)) as Dk.
  pose proof (Z.mod_pos_bound (x * Rr) B ltac:(lia)) as Mk.
  fold k in Dk.
  set (g := k * B / Rr).
  pose proof (Z.div_mod (k * B) Rr ltac:(lia)) as Dg.
  pose proof (Z.mod_pos_bound (k * B) Rr ltac:(lia)) as Mg.
  fold g in Dg.
  assert (Hx : 0 <= x <= B) by (unfold x, B; lia).
  assert (Hg1 : g <= x) by nia.
  assert (Hg2 : x - 1 <= g) by nia.
  unfold x in Hg1, Hg2; lia.
Qed.

Lemma getTarget_setTarget_within_one_witness :
  let s := fst (home (init 9 1000 2000 0 180 0 global_servo)) in
  (0 <= minBr s < maxBr s /\ maxBr s < 2 ^ 15 /\ 0 <= minMS s < maxMS s /\
   maxMS s < 2 ^ 15 /\ (maxBr s - minBr s) * (maxMS s - minMS s) < 2 ^ 31 /\
   maxBr s - minBr s <= maxMS s - minMS s) /\
  constrain 1 (minBr s) (maxBr s) - 1 <= getTarget (fst (setTarget 1 0 s)) <=
    constrain 1 (minBr s) (maxBr s).
Proof.
  cbv zeta.
  assert (H : 0 <= 0 < 180 /\ 180 < 2 ^ 15 /\ 0 <= 1000 < 2000 /\
              2000 < 2 ^ 15 /\ (180 - 0) * (2000 - 1000) < 2 ^ 31 /\
              180 - 0 <= 2000 - 1000) by lia.
  split; [exact H|].
  destruct H as (H1 & H2 & H3 & H4 & H5 & H6).
  exact (getTarget_setTarget_within_one 1 0
           (fst (home (init 9 1000 2000 0 180 0 global_servo))) H1 H2 H3 H4 H5 H6).
Defined.

(** Witness of [update_down_phase]. *)
Lemma update_down_phase_witness :
  (wf down_move /\ target down_move < current down_move /\
   current down_move - target down_move < 2 ^ 15 /\
   interval down_move < u32 (100 - previousMillis down_move) /\
   0 <= minInterval down_move /\ 0 <= interval down_move < 2 ^ 8 /\
   startInterval down_move < 2 ^ 8) /\
  interval (fst (update 100 down_move)) = spec_ramp down_move.
Proof.
  assert (E : current down_move = 2000 /\ target down_move = 1000 /\
              previousMillis down_move = 0 /\ interval down_move = 20 /\
              minInterval down_move = 5 /\ startInterval down_move = 20)
    by (vm_compute; repeat split).
  destruct E as (E1 & E2 & E3 & E4 & E5 & E6).
  assert (G : interval down_move < u32 (100 - previousMillis down_move))
    by (rewrite E3, E4; vm_compute; reflexivity).
  assert (W : wf down_move) by (unfold wf; rewrite E1, E2; lia).
  assert (H : wf down_move /\ target down_move < current down_move /\
              current down_move - target down_move < 2 ^ 15 /\
              interval down_move < u32 (100 - previousMillis down_move) /\
              0 <= minInterval down_move /\ 0 <= interval down_move < 2 ^ 8 /\
              startInterval down_move < 2 ^ 8)
    by (rewrite E1, E2, E4, E5, E6; repeat split; try lia; rewrite <- E4; exact G).
  split; [exact H|].
  destruct H as (H1 & H2 & H3 & H4 & H5 & H6 & H7).
  exact (update_down_phase 100 down_move H1 H2 H3 H4 H5 H6 H7).
Defined.

(** Witness of [setTarget_small_ranges]. *)
Lemma setTarget_small_ranges_witness :
  let s := fst (home (init 9 1000 2000 0 180 90 global_servo)) in
  (0 <= minBr s < maxBr s /\ maxBr s < 2 ^ 15 /\ 0 <= minMS s <= maxMS s /\
   maxMS s < 2 ^ 15 /\ (maxBr s - minBr s) * (maxMS s - minMS s) < 2 ^ 31) /\
  snd (setTarget 45 0 s) = spec_resolve 45 s.
Proof.
  cbv zeta.
  assert (H : 0 <= 0 < 180 /\ 180 < 2 ^ 15 /\ 0 <= 1000 <= 2000 /\
              2000 < 2 ^ 15 /\ (180 - 0) * (2000 - 1000) < 2 ^ 31) by lia.
  split; [exact H|].
  destruct H as (H1 & H2 & H3 & H4 & H5).
  exact (setTarget_small_ranges 45 0
           (fst (home (init 9 1000 2000 0 180 90 global_servo))) H1 H2 H3 H4 H5).
Defined.

(** After [setTarget], however many [home], [setTarget] and [update] calls
    follow, [interval] stays between 0 and [startInterval]. *)
Theorem interval_never_exceeds_startInterval (tgt d : Z) (s : AsyncServo)
  (os : list op) :
  0 <= minInterval s -> 0 <= startInterval s < 2 ^ 8 ->
  let s' := exec os (fst (setTarget tgt d s)) in
  0 <= interval s' <= startInterval s' /\ startInterval s' = startInterval s.
Proof.
  intros Hmin Hst s'.
  pose proof (exec_interval_ok os _ (setTarget_interval_ok tgt d s Hmin Hst)) as I.
  pose proof (exec_frame os (fst (setTarget tgt d s))) as F; cbv zeta in F.
  destruct F as (_ & _ & _ & _ & _ & _ & _ & Fs & _).
  unfold interval_ok in I; fold s' in I, Fs; split; [lia | exact Fs].
Qed.

Lemma interval_never_exceeds_startInterval_witness :
  (0 <= minInterval up_move /\ 0 <= startInterval up_move < 2 ^ 8) /\
  (let s' := exec [Update 100; Update 200; SetTarget 0 0; Update 300]
                  (fst (setTarget 90 0 up_move)) in
   0 <= interval s' <= startInterval s' /\ startInterval s' = startInterval up_move).
Proof.
  assert (H : 0 <= minInterval up_move /\ 0 <= startInterval up_move < 2 ^ 8)
    by (vm_compute; repeat split; intros E; discriminate E).
  split; [exact H|].
  exact (interval_never_exceeds_startInterval 90 0 up_move
           [Update 100; Update 200; SetTarget 0 0; Update 300]
           (proj1 H) (proj2 H)).
Defined.

(** A second [setTarget] overrides the first completely: object and
    returned value are those of the second call alone, also in the middle
    of a move. *)
Theorem setTarget_setTarget (tgt1 d1 tgt2 d2 : Z) (s : AsyncServo) :
  setTarget tgt2 d2 (fst (setTarget tgt1 d1 s)) = setTarget tgt2 d2 s.
Proof. reflexivity. Qed.

(** [update] writes only [current], [interval] and [previousMillis]; it
    never changes the target, the snapshot [startAngle] or the
    configuration, and writes at most one pulse width, the new [current]. *)
Theorem update_frame (now : Z) (s : AsyncServo) :
  let '(s', w) := update now s in
  attached s' = attached s /\ minBr s' = minBr s /\ maxBr s' = maxBr s /\
  minMS s' = minMS s /\ maxMS s' = maxMS s /\ homeMS s' = homeMS s /\
  target s' = target s /\ startAngle s' = startAngle s /\
  minInterval s' = minInterval s /\ startInterval s' = startInterval s /\
  rampUp s' = rampUp s /\ rampDown s' = rampDown s /\
  (w = [] \/ w = [current s']).
Proof.
  unfold update.
  destruct (current s =? target s); [repeat split; auto|].
  destruct (interval s <? u32 (now - previousMillis s)); repeat split; auto.
Qed.

(** On an upward move (at most 2^15 units) [update] never lowers
    [interval]: the wrapped unsigned distance makes [remaining] negative,
    so every upward step takes the decelerating branch. *)
Theorem update_up_never_accelerates (now : Z) (s : AsyncServo) :
  wf s -> current s < target s -> target s - current s <= 2 ^ 15 ->
  0 <= rampDown s -> 0 <= interval s -> startInterval s < 2 ^ 8 ->
  interval s <= interval (fst (update now s)).
Proof.
  intros [Hc Ht] Hlt Hd Hrd Hi Hst; unfold update.
  destruct (Z.eqb_spec (current s) (target s)); [lia|].
  destruct (interval s <? u32 (now - previousMillis s)); cbn [fst interval]; [|lia].
  assert (Hr : s16 (abs_uint (u16 (current s - target s))) = current s - target s).
  { assert (Hu : u16 (current s - target s) = current s - target s + 2 ^ 16)
      by (unfold u16; symmetry; apply Z.mod_unique with (q := -1); lia).
    unfold abs_uint; rewrite Hu.
    destruct (Z.ltb_spec 0 (current s - target s + 2 ^ 16)); [|lia].
    unfold s16; rewrite Z.mod_small by lia.
    destruct (Z.leb_spec (2 ^ 15) (current s - target s + 2 ^ 16)); lia. }
  rewrite Hr; unfold ramp, u8.
  destruct (Z.ltb_spec (current s - target s) (rampDown s)); [|lia].
  destruct (Z.ltb_spec (interval s) (startInterval s)); [|lia].
  rewrite Z.mod_small by lia; lia.
Qed.

Lemma update_up_never_accelerates_witness :
  (wf up_move /\ current up_move < target up_move /\
   target up_move - current up_move <= 2 ^ 15 /\ 0 <= rampDown up_move /\
   0 <= interval up_move /\ startInterval up_move < 2 ^ 8) /\
  interval up_move <= interval (fst (update 100 up_move)).
Proof.
  assert (E : current up_move = 1000 /\ target up_move = 1600 /\
              rampDown up_move = 66 /\ interval up_move = 20 /\
              startInterval up_move = 20) by (vm_compute; repeat split).
  destruct E as (E1 & E2 & E3 & E4 & E5).
  assert (W : wf up_move) by (unfold wf; rewrite E1, E2; lia).
  assert (H : wf up_move /\ current up_move < target up_move /\
              target up_move - current up_move <= 2 ^ 15 /\ 0 <= rampDown up_move /\
              0 <= interval up_move /\ startInterval up_move < 2 ^ 8)
    by (rewrite E1, E2, E3, E4, E5; repeat split; try lia; exact W).
  split; [exact H|].
  destruct H as (H1 & H2 & H3 & H4 & H5 & H6).
  exact (update_up_never_accelerates 100 up_move H1 H2 H3 H4 H5 H6).
Defined.

(** Polled every millisecond from the last step on, a move of [dist s]
    units completes within [256 * dist s] calls of [update], with exactly
    [dist s] writes, also across the wrap of the 32-bit millisecond
    counter. *)
Theorem ramp_completes_at_1ms (s : AsyncServo) (p : Z) :
  wf s -> 0 <= interval s < 2 ^ 8 -> previousMillis s = u32 p -> 0 <= p ->
  let '(s', w) := run (ticks32 (p + 1) (256 * Z.to_nat (dist s))) s in
  current s' = target s' /\ target s' = target s /\
  Z.of_nat (length w) = dist s.
Proof.
  intros Hwf Hi Hp Hp0.
  pose proof (run_ticks32_progress (256 * Z.to_nat (dist s)) s p 1 Hwf Hi Hp Hp0
                ltac:(lia)) as P.
  pose proof (run_any (ticks32 (p + 1) (256 * Z.to_nat (dist s))) s Hwf) as A.
  destruct (run (ticks32 (p + 1) (256 * Z.to_nat (dist s))) s) as [s' w].
  cbn [fst] in P; destruct A as (_ & At & Ad & _).
  assert (Hd0 : 0 <= dist s) by (unfold dist; lia).
  replace (1 + Z.of_nat (256 * Z.to_nat (dist s)) - 1) with (dist s * 2 ^ 8) in P
    by (rewrite Nat2Z.inj_mul, Z2Nat.id by lia; lia).
  rewrite Z.div_mul in P by lia.
  assert (Hz : dist s' = 0) by (unfold dist in *; lia).
  unfold dist in Hz; split; [lia|]; split; [exact At|].
  unfold dist in *; lia.
Qed.

(** A move 1500 -> 2000 whose previous step time is 10 ms before the
    32-bit counter wraps. *)
Lemma ramp_completes_at_1ms_witness :
  let s := fst (update (2 ^ 32 - 10) scenario_90) in
  (wf s /\ 0 <= interval s < 2 ^ 8 /\ previousMillis s = u32 (2 ^ 32 - 10) /\
   0 <= 2 ^ 32 - 10) /\
  (let '(s', w) := run (ticks32 (2 ^ 32 - 10 + 1) (256 * Z.to_nat (dist s))) s in
   current s' = target s' /\ target s' = target s /\ Z.of_nat (length w) = dist s).
Proof.
  cbv zeta.
  assert (E : current (fst (update (2 ^ 32 - 10) scenario_90)) = 1501 /\
              target (fst (update (2 ^ 32 - 10) scenario_90)) = 2000 /\
              interval (fst (update (2 ^ 32 - 10) scenario_90)) = 0 /\
              previousMillis (fst (update (2 ^ 32 - 10) scenario_90)) =
                u32 (2 ^ 32 - 10)) by (vm_compute; repeat split).
  destruct E as (E1 & E2 & E3 & E4).
  assert (H : wf (fst (update (2 ^ 32 - 10) scenario_90)) /\
              0 <= interval (fst (update (2 ^ 32 - 10) scenario_90)) < 2 ^ 8 /\
              previousMillis (fst (update (2 ^ 32 - 10) scenario_90)) =
                u32 (2 ^ 32 - 10) /\ 0 <= 2 ^ 32 - 10)
    by (unfold wf; rewrite E1, E2, E3; repeat split; try lia; exact E4).
  split; [exact H|].
  destruct H as (H1 & H2 & H3 & H4).
  exact (ramp_completes_at_1ms _ (2 ^ 32 - 10) H1 H2 H3 H4).
Defined.
